(** * bfs: saturating size arithmetic (alloc.h) and the I/O queue's entry pool (ioq.h)

    A shallow embedding of the inline functions of [alloc.h]:
    [align_floor], [align_ceil], [array_size] and [flex_size].  A [size_t] is
    an integer in [0, 2^w) and every C operator is written with its
    wrap-around.  The unsigned division is partial: a zero divisor has no
    defined result in C, so it yields [None] here.

    [ioq.h] declares the entry type and the operations of the I/O queue;
    the queue's state is described as a transition system over the owners
    of the pool's entries. *)

From Stdlib Require Import ZArith Lia Bool List.
Import ListNotations.

Local Open Scope Z_scope.

(** ** Unsigned machine words of width [w] *)

Module SizeT.

Section Width.

Variable w : Z.

Definition modulus : Z := 2 ^ w.

Definition SIZE_MAX : Z := modulus - 1.

Definition in_range (x : Z) : Prop := 0 <= x < modulus.

Definition wrap (x : Z) : Z := x mod modulus.

(** [a + b], [a - b], [a * b], [-a] and [~a] on a [size_t]. *)
Definition add (a b : Z) : Z := wrap (a + b).
Definition sub (a b : Z) : Z := wrap (a - b).
Definition mul (a b : Z) : Z := wrap (a * b).
Definition neg (a : Z) : Z := wrap (- a).
Definition not (a : Z) : Z := wrap (Z.lnot a).

(** [a / b]: undefined for [b = 0]. *)
Definition div (a b : Z) : option Z :=
  if b =? 0 then None else Some (a / b).

(** The [int] result of a comparison, converted to [size_t]. *)
Definition of_bool (b : bool) : Z := if b then 1 else 0.

(** An alignment is a power of two that fits in a [size_t]. *)
Definition is_pow2 (a : Z) : Prop := exists k, 0 <= k < w /\ a = 2 ^ k.

End Width.

End SizeT.

(** A small error monad for the partial operations. *)
Definition bind {A B : Type} (m : option A) (f : A -> option B) : option B :=
  match m with
  | Some a => f a
  | None => None
  end.

Notation "x <- m ;; k" := (bind m (fun x => k))
  (at level 61, m at next level, right associativity).

(** ** alloc.h *)

Module Alloc.

Import SizeT.

Section Width.

Variable w : Z.

(** [size & ~(align - 1)] *)
Definition align_floor (align size : Z) : Z :=
  Z.land size (not w (sub w align 1)).

(** [align_floor(align, size + align - 1)] *)
Definition align_ceil (align size : Z) : Z :=
  align_floor align (sub w (add w size align) 1).

(** The value [~(align - 1)] both saturating helpers fall back to. *)
Definition sentinel (align : Z) : Z := not w (sub w align 1).

Definition array_size (align size count : Z) : option Z :=
  let ret := mul w size count in
  q <- div ret size ;;
  Some (if q =? count then ret else not w (sub w align 1)).

Definition flex_size (align min offset size count : Z) : option Z :=
  let ret := mul w size count in
  q <- div ret size ;;
  let overflow := of_bool (negb (q =? count)) in
  let extra := sub w (add w offset align) 1 in
  let ret := add w ret extra in
  let overflow := Z.lor overflow (of_bool (ret <? extra)) in
  let ret := Z.lor ret (neg w overflow) in
  let ret := align_floor align ret in
  let ret :=
    if align_ceil align offset <? min
    then (if ret <? min then min else ret)
    else ret in
  Some ret.

(** The layout of a struct type [T] with a flexible array member [m]:
    what [alignof(T)], [sizeof(T)], [offsetof(T, m)] and
    [sizeof_member(T, m[0])] evaluate to. *)
Record layout : Type := {
  alignof : Z;
  sizeof : Z;
  offsetof : Z;
  sizeof_member : Z
}.

(** [sizeof_array(type, count)] for an element type of the given
    alignment and size. *)
Definition sizeof_array (t : layout) (count : Z) : option Z :=
  array_size (alignof t) (sizeof t) count.

(** [sizeof_flex(type, member, count)] *)
Definition sizeof_flex (t : layout) (count : Z) : option Z :=
  flex_size (alignof t) (sizeof t) (offsetof t) (sizeof_member t) count.

(** The size computation as the specification words it: the sum
    [esz * n + off] rounded down to the alignment, then raised to [min]
    when [min] exceeds [align_ceil(A, off)]. *)
Definition flex_size_spec (align min offset size count : Z) : Z :=
  let ret := align_floor align (size * count + offset) in
  if align_ceil align offset <? min
  then Z.max min ret
  else ret.

(** Closed form of [ret] in [flex_size] just before the clamp to [min],
    for the alignment [2^k]: the sum [size * count + (offset + align - 1)]
    rounded down when neither the product nor the sum leaves the word, the
    sentinel otherwise. *)
Definition flex_raw (k offset size count : Z) : Z :=
  let extra := wrap w (offset + 2 ^ k - 1) in
  if (size * count <? modulus w) && (size * count + extra <? modulus w)
  then 2 ^ k * ((size * count + extra) / 2 ^ k)
  else modulus w - 2 ^ k.

End Width.

End Alloc.

(** ** ioq.h

    The header declares the entry type and the queue's operations; the
    queue itself ([struct ioq]) is opaque there. *)

Module Ioq.

(** I/O queue operations. *)
Inductive ioq_op : Type :=
| IOQ_CLOSE
| IOQ_OPENDIR
| IOQ_CLOSEDIR.

(** The operation-specific arguments of an entry (the anonymous union of
    [struct ioq_ent]); pointers are addresses. *)
Inductive ioq_args : Type :=
| ioq_close_args (fd : Z)
| ioq_opendir_args (dir dfd path : Z)
| ioq_closedir_args (dir : Z).

(** An I/O queue entry. *)
Record ioq_ent : Type := {
  op : ioq_op;
  ret : Z;
  error : Z;
  ptr : Z;
  args : ioq_args
}.

(** The error code of a cancelled operation. *)
Definition ECANCELED : Z := 125.

(** Modelled from the spec: the state behind the opaque [struct ioq]
    (its definition is in ioq.c, which is not among the sources).  The
    queue owns a pool of [depth] entries; an entry is on the free stack, in
    the submission ring, held by a worker, in the completion ring, or
    handed to the driver by a pop and not yet freed. *)
Record ioq : Type := {
  depth : nat;
  nthreads : nat;
  free : list ioq_ent;
  submitted : list ioq_ent;
  inflight : list ioq_ent;
  completed : list ioq_ent;
  popped : list ioq_ent;
  cancelled : bool
}.

Definition blank_ent : ioq_ent :=
  {| op := IOQ_CLOSE; ret := 0; error := 0; ptr := 0; args := ioq_close_args 0 |}.

(** The list without its [i]-th element. *)
Definition remove_at {A : Type} (i : nat) (l : list A) : list A :=
  firstn i l ++ skipn (S i) l.

(** Modelled from the spec: [ioq_create(depth, nthreads)] allocates a block
    of [depth] entries and threads them onto the free stack; it returns
    null when an allocation fails ([alloc_ok] is the allocator's answer). *)
Definition ioq_create (alloc_ok : bool) (depth nthreads : nat) : option ioq :=
  if alloc_ok
  then Some {| depth := depth; nthreads := nthreads;
               free := repeat blank_ent depth;
               submitted := []; inflight := []; completed := []; popped := [];
               cancelled := false |}
  else None.

(** Modelled from the spec: [ioq_capacity] is the current free-slot count. *)
Definition ioq_capacity (q : ioq) : nat := length (free q).

(** Modelled from the spec: a submission pops a free entry, populates it
    and pushes it into the submission ring; it fails (-1) when the free
    pool is exhausted. *)
Definition ioq_submit (q : ioq) (o : ioq_op) (a : ioq_args) (p : Z) : option ioq :=
  match free q with
  | [] => None
  | e :: rest =>
      Some {| depth := depth q; nthreads := nthreads q;
              free := rest;
              submitted := submitted q ++
                [ {| op := o; ret := ret e; error := error e; ptr := p; args := a |} ];
              inflight := inflight q; completed := completed q; popped := popped q;
              cancelled := cancelled q |}
  end.

Definition ioq_close (q : ioq) (fd p : Z) : option ioq :=
  ioq_submit q IOQ_CLOSE (ioq_close_args fd) p.

Definition ioq_opendir (q : ioq) (dir dfd path p : Z) : option ioq :=
  ioq_submit q IOQ_OPENDIR (ioq_opendir_args dir dfd path) p.

Definition ioq_closedir (q : ioq) (dir p : Z) : option ioq :=
  ioq_submit q IOQ_CLOSEDIR (ioq_closedir_args dir) p.

(** Modelled from the spec: an idle worker dequeues the oldest submission
    and starts the operation. *)
Definition worker_dispatch (q : ioq) : option ioq :=
  match submitted q with
  | [] => None
  | e :: rest =>
      if (length (inflight q) <? nthreads q)%nat
      then Some {| depth := depth q; nthreads := nthreads q;
                   free := free q; submitted := rest;
                   inflight := e :: inflight q;
                   completed := completed q; popped := popped q;
                   cancelled := cancelled q |}
      else None
  end.

(** Modelled from the spec: the worker holding the [i]-th in-flight entry
    records the result of the system call and pushes the entry onto the
    completion ring. *)
Definition worker_publish (q : ioq) (i : nat) (r err : Z) : option ioq :=
  match nth_error (inflight q) i with
  | None => None
  | Some e =>
      Some {| depth := depth q; nthreads := nthreads q;
              free := free q; submitted := submitted q;
              inflight := remove_at i (inflight q);
              completed := completed q ++
                [ {| op := op e; ret := r; error := err; ptr := ptr e; args := args e |} ];
              popped := popped q;
              cancelled := cancelled q |}
  end.

(** Modelled from the spec: [ioq_trypop] returns the oldest completion, or
    null when the completion ring is empty; [ioq_pop] returns the same
    entry once one is available. *)
Definition ioq_trypop (q : ioq) : option (ioq_ent * ioq) :=
  match completed q with
  | [] => None
  | e :: rest =>
      Some (e, {| depth := depth q; nthreads := nthreads q;
                  free := free q; submitted := submitted q;
                  inflight := inflight q; completed := rest;
                  popped := e :: popped q;
                  cancelled := cancelled q |})
  end.

(** Modelled from the spec: [ioq_free] returns an entry the driver holds
    (the [i]-th popped one) to the free stack; freeing anything else is
    outside the contract. *)
Definition ioq_free (q : ioq) (i : nat) : option ioq :=
  match nth_error (popped q) i with
  | None => None
  | Some e =>
      Some {| depth := depth q; nthreads := nthreads q;
              free := e :: free q; submitted := submitted q;
              inflight := inflight q; completed := completed q;
              popped := remove_at i (popped q);
              cancelled := cancelled q |}
  end.

Definition cancel_ent (e : ioq_ent) : ioq_ent :=
  {| op := op e; ret := -1; error := ECANCELED; ptr := ptr e; args := args e |}.

(** Modelled from the spec: [ioq_cancel] sets the cancellation flag and
    drains the submission ring into the completion ring with [ret = -1]
    and [error = ECANCELED]; in-flight operations are left alone. *)
Definition ioq_cancel (q : ioq) : ioq :=
  {| depth := depth q; nthreads := nthreads q;
     free := free q; submitted := [];
     inflight := inflight q;
     completed := completed q ++ map cancel_ent (submitted q);
     popped := popped q;
     cancelled := true |}.

(** Modelled from the spec: one atomic step of the queue, taken by the
    driver (submit, pop, free, cancel) or by a worker (dispatch, publish). *)
Inductive step : ioq -> ioq -> Prop :=
| step_submit q o a p q' : ioq_submit q o a p = Some q' -> step q q'
| step_dispatch q q' : worker_dispatch q = Some q' -> step q q'
| step_publish q i r err q' : worker_publish q i r err = Some q' -> step q q'
| step_pop q e q' : ioq_trypop q = Some (e, q') -> step q q'
| step_free q i q' : ioq_free q i = Some q' -> step q q'
| step_cancel q : step q (ioq_cancel q).

(** The states a queue can be in after any sequence of steps. *)
Inductive reachable (q0 : ioq) : ioq -> Prop :=
| reach_init : reachable q0 q0
| reach_step q q' : reachable q0 q -> step q q' -> reachable q0 q'.

(** Entries completed and not yet freed: queued completions and those the
    driver holds. *)
Definition n_completed (q : ioq) : nat :=
  (length (completed q) + length (popped q))%nat.

(** Every entry of the pool is accounted for. *)
Definition accounted (q : ioq) : Prop :=
  (length (free q) + length (submitted q) + length (inflight q) + n_completed q
   = depth q)%nat.

End Ioq.


(** * Facts about machine words *)

Import SizeT Alloc.

Section WordFacts.

Variable w : Z.

Lemma modulus_pos (x : Z) : in_range w x -> 0 < modulus w.
Proof. unfold in_range; lia. Qed.

Lemma width_nonneg (x : Z) : in_range w x -> 0 <= w.
Proof.
  intros H. apply modulus_pos in H. unfold modulus in H.
  destruct (Z.neg_nonneg_cases w) as [Hn | Hn]; [ | exact Hn ].
  rewrite Z.pow_neg_r in H by exact Hn. lia.
Qed.

Lemma wrap_small (x : Z) : in_range w x -> wrap w x = x.
Proof. intros H. apply Z.mod_small. exact H. Qed.

Lemma wrap_range (x y : Z) : in_range w y -> in_range w (wrap w x).
Proof. intros H. apply Z.mod_pos_bound. exact (modulus_pos _ H). Qed.

Lemma wrap_sub_modulus (x : Z) :
  modulus w <= x < 2 * modulus w -> wrap w x = x - modulus w.
Proof.
  intros H. unfold wrap.
  replace x with ((x - modulus w) + 1 * modulus w) at 1 by ring.
  rewrite Z.mod_add by lia. apply Z.mod_small. lia.
Qed.

Lemma not_small (x : Z) : in_range w x -> not w x = SIZE_MAX w - x.
Proof.
  intros H. unfold not, SIZE_MAX, wrap, Z.lnot.
  replace (Z.pred (- x)) with ((modulus w - 1 - x) + (-1) * modulus w) by lia.
  rewrite Z.mod_add by (unfold in_range in H; lia).
  apply Z.mod_small. unfold in_range in H. lia.
Qed.

Lemma neg_one (x : Z) : in_range w x -> neg w 1 = SIZE_MAX w.
Proof.
  intros H. unfold neg, SIZE_MAX, wrap.
  replace (- (1)) with ((modulus w - 1) + (-1) * modulus w) by lia.
  rewrite Z.mod_add by (unfold in_range in H; lia).
  apply Z.mod_small. unfold in_range in H. lia.
Qed.

Lemma neg_zero (x : Z) : in_range w x -> neg w 0 = 0.
Proof.
  intros H. unfold neg, wrap. apply Z.mod_0_l.
  unfold in_range in H. lia.
Qed.

Lemma SIZE_MAX_ones : 0 <= w -> SIZE_MAX w = Z.ones w.
Proof. intros H. unfold SIZE_MAX, modulus. rewrite Z.ones_equiv. lia. Qed.

Lemma land_SIZE_MAX (x : Z) : in_range w x -> Z.land x (SIZE_MAX w) = x.
Proof.
  intros H. rewrite SIZE_MAX_ones by exact (width_nonneg _ H).
  rewrite Z.land_ones by exact (width_nonneg _ H).
  apply Z.mod_small. exact H.
Qed.

(** [x | ~0] is all ones. *)
Lemma lor_SIZE_MAX (x : Z) : in_range w x -> Z.lor x (SIZE_MAX w) = SIZE_MAX w.
Proof.
  intros H. pose proof (Z.add_lor_land x (SIZE_MAX w)) as E.
  rewrite land_SIZE_MAX in E by exact H. lia.
Qed.

Lemma pow2_range (k : Z) : 0 <= k < w -> 0 < 2 ^ k /\ 2 * 2 ^ k <= modulus w.
Proof.
  intros H. split; [ apply Z.pow_pos_nonneg; lia | ].
  unfold modulus. rewrite <- Z.pow_succ_r by lia.
  apply Z.pow_le_mono_r; lia.
Qed.

Lemma pow2_divides_modulus (k : Z) :
  0 <= k < w -> modulus w = 2 ^ k * 2 ^ (w - k).
Proof.
  intros H. unfold modulus. rewrite <- Z.pow_add_r by lia.
  f_equal. lia.
Qed.

End WordFacts.

(** * Alignment to a power of two *)

Section Alignment.

Variable w : Z.

Lemma testbit_high (x n : Z) : in_range w x -> w <= n -> Z.testbit x n = false.
Proof.
  intros H Hn. rewrite <- (wrap_small w x H). unfold wrap, modulus.
  apply Z.mod_pow2_bits_high. pose proof (width_nonneg _ _ H). lia.
Qed.

(** Masking with [2^w - 2^k] clears the [k] low bits. *)
Lemma land_mask (k x : Z) :
  0 <= k < w -> in_range w x ->
  Z.land x (modulus w - 2 ^ k) = 2 ^ k * (x / 2 ^ k).
Proof.
  intros Hk Hx.
  replace (modulus w - 2 ^ k) with (Z.shiftl (Z.ones (w - k)) k).
  2:{ rewrite Z.shiftl_mul_pow2, Z.ones_equiv by lia.
      rewrite (pow2_divides_modulus w k Hk). unfold Z.pred. ring. }
  rewrite (Z.mul_comm (2 ^ k)), <- Z.shiftr_div_pow2, <- Z.shiftl_mul_pow2 by lia.
  apply Z.bits_inj'. intros n Hn.
  rewrite Z.land_spec, !Z.shiftl_spec by exact Hn.
  destruct (Z.lt_ge_cases n k) as [Hlt | Hge].
  - rewrite (Z.testbit_neg_r (Z.ones (w - k))) by lia.
    rewrite (Z.testbit_neg_r (Z.shiftr x k)) by lia. apply andb_false_r.
  - rewrite Z.shiftr_spec by lia. replace (n - k + k) with n by lia.
    destruct (Z.lt_ge_cases n w) as [Hlo | Hhi].
    + rewrite Z.ones_spec_low by lia. apply andb_true_r.
    + rewrite Z.ones_spec_high by lia.
      rewrite (testbit_high x n Hx Hhi). reflexivity.
Qed.

Lemma pred_pow2_range (k : Z) : 0 <= k < w -> in_range w (2 ^ k - 1).
Proof. intros H. pose proof (pow2_range w k H). unfold in_range. lia. Qed.

Lemma sentinel_pow2 (k : Z) :
  0 <= k < w -> sentinel w (2 ^ k) = modulus w - 2 ^ k.
Proof.
  intros Hk. unfold sentinel, sub.
  rewrite wrap_small by exact (pred_pow2_range k Hk).
  rewrite not_small by exact (pred_pow2_range k Hk).
  unfold SIZE_MAX. lia.
Qed.

Lemma align_floor_pow2 (k x : Z) :
  0 <= k < w -> in_range w x ->
  align_floor w (2 ^ k) x = 2 ^ k * (x / 2 ^ k).
Proof.
  intros Hk Hx. unfold align_floor.
  fold (sentinel w (2 ^ k)). rewrite sentinel_pow2 by exact Hk.
  apply land_mask; assumption.
Qed.

(** Rounding all ones down gives the sentinel. *)
Lemma align_floor_SIZE_MAX (k : Z) :
  0 <= k < w -> align_floor w (2 ^ k) (SIZE_MAX w) = modulus w - 2 ^ k.
Proof.
  intros Hk. pose proof (pow2_range w k Hk) as [Hp Hm].
  rewrite align_floor_pow2 by (unfold in_range, SIZE_MAX; lia).
  unfold SIZE_MAX. rewrite (pow2_divides_modulus w k Hk).
  replace (2 ^ k * 2 ^ (w - k) - 1)
    with ((2 ^ k - 1) + (2 ^ (w - k) - 1) * 2 ^ k) by ring.
  rewrite Z.div_add by lia. rewrite Z.div_small by lia. ring.
Qed.

(** The computed [size + align - 1]. *)
Lemma extra_wrap (a x : Z) :
  sub w (add w x a) 1 = wrap w (x + a - 1).
Proof.
  unfold sub, add, wrap. rewrite Zminus_mod_idemp_l. reflexivity.
Qed.

Lemma align_ceil_pow2 (k x : Z) :
  0 <= k < w -> 0 <= x -> x + 2 ^ k - 1 < modulus w ->
  align_ceil w (2 ^ k) x = 2 ^ k * ((x + 2 ^ k - 1) / 2 ^ k).
Proof.
  intros Hk Hx Hs. pose proof (pow2_range w k Hk) as [Hp Hm].
  unfold align_ceil. rewrite extra_wrap.
  rewrite wrap_small by (unfold in_range; lia).
  apply align_floor_pow2; [ exact Hk | unfold in_range; lia ].
Qed.

(** Arithmetic of rounding down and up to a positive [a]. *)
Lemma floor_bounds (a x : Z) : 0 < a -> a * (x / a) <= x < a * (x / a) + a.
Proof.
  intros Ha. pose proof (Z.div_mod x a ltac:(lia)).
  pose proof (Z.mod_pos_bound x a Ha). lia.
Qed.

Lemma floor_greatest (a x m : Z) :
  0 < a -> (a | m) -> m <= x -> m <= a * (x / a).
Proof.
  intros Ha [q ->] Hle.
  assert (q <= x / a) by (apply Z.div_le_lower_bound; lia).
  nia.
Qed.

Lemma ceil_bounds (a x : Z) :
  0 < a -> x <= a * ((x + a - 1) / a) < x + a.
Proof. intros Ha. pose proof (floor_bounds a (x + a - 1) Ha). lia. Qed.

Lemma ceil_least (a x m : Z) :
  0 < a -> (a | m) -> x <= m -> a * ((x + a - 1) / a) <= m.
Proof.
  intros Ha [q ->] Hle.
  assert ((x + a - 1) / a < q + 1) by (apply Z.div_lt_upper_bound; lia).
  nia.
Qed.

Lemma ceil_mono (a x y : Z) :
  0 < a -> x <= y -> a * ((x + a - 1) / a) <= a * ((y + a - 1) / a).
Proof.
  intros Ha Hle. apply Z.mul_le_mono_nonneg_l; [ lia | ].
  apply Z.div_le_mono; lia.
Qed.

End Alignment.

(** * What the saturating helpers compute *)

Section Saturation.

Variable w : Z.

(** The division test of [array_size] and [flex_size] detects exactly the
    products that do not fit. *)
Lemma mul_check (size count : Z) :
  in_range w size -> 0 < size -> 0 <= count ->
  (mul w size count / size =? count) = (size * count <? modulus w).
Proof.
  intros Hr Hs Hc. unfold mul.
  destruct (Z.ltb_spec (size * count) (modulus w)) as [Hfit | Hover].
  - rewrite wrap_small by (unfold in_range; nia).
    rewrite Z.mul_comm, Z.div_mul by lia. apply Z.eqb_refl.
  - apply Z.eqb_neq.
    pose proof (wrap_range w (size * count) size Hr) as [_ Hlt].
    assert (wrap w (size * count) / size < count)
      by (apply Z.div_lt_upper_bound; lia).
    lia.
Qed.

Lemma div_pos (a size : Z) : 0 < size -> div a size = Some (a / size).
Proof.
  intros Hs. unfold div.
  destruct (Z.eqb_spec size 0) as [E | _]; [ lia | reflexivity ].
Qed.

Lemma array_size_eq (align size count : Z) :
  in_range w size -> 0 < size -> in_range w count ->
  array_size w align size count =
  Some (if size * count <? modulus w then size * count else sentinel w align).
Proof.
  intros Hr Hs Hc. unfold array_size. cbv zeta.
  rewrite div_pos by exact Hs. cbn [bind].
  rewrite mul_check by (try assumption; apply Hc).
  destruct (Z.ltb_spec (size * count) (modulus w)) as [Hfit | Hover].
  - unfold mul. rewrite wrap_small; [ reflexivity | ].
    unfold in_range in *; nia.
  - reflexivity.
Qed.

Lemma clamp_max (min ret : Z) : (if ret <? min then min else ret) = Z.max min ret.
Proof. destruct (Z.ltb_spec ret min); lia. Qed.

Lemma flex_size_eq (k min offset size count : Z) :
  0 <= k < w -> in_range w size -> 0 < size -> in_range w count ->
  flex_size w (2 ^ k) min offset size count =
  Some (if align_ceil w (2 ^ k) offset <? min
        then Z.max min (flex_raw w k offset size count)
        else flex_raw w k offset size count).
Proof.
  intros Hk Hr Hs Hc. unfold flex_size. cbv zeta.
  rewrite div_pos by exact Hs. cbn [bind].
  rewrite mul_check by (try assumption; apply Hc).
  rewrite clamp_max, extra_wrap.
  assert (Hraw :
    align_floor w (2 ^ k)
      (Z.lor (add w (mul w size count) (wrap w (offset + 2 ^ k - 1)))
         (neg w (Z.lor (of_bool (negb (size * count <? modulus w)))
                   (of_bool (add w (mul w size count) (wrap w (offset + 2 ^ k - 1))
                             <? wrap w (offset + 2 ^ k - 1))))))
    = flex_raw w k offset size count).
  { unfold flex_raw. cbv zeta.
    set (extra := wrap w (offset + 2 ^ k - 1)).
    assert (He : in_range w extra) by (apply (wrap_range w _ size Hr)).
    assert (Hsum : in_range w (add w (mul w size count) extra))
      by (apply (wrap_range w _ size Hr)).
    destruct (Z.ltb_spec (size * count) (modulus w)) as [Hfit | Hover]; cbn [negb andb of_bool].
    - unfold mul. rewrite (wrap_small w (size * count))
        by (unfold in_range in *; nia).
      unfold add.
      destruct (Z.ltb_spec (size * count + extra) (modulus w)) as [Hfit' | Hover'].
      + rewrite wrap_small by (unfold in_range in *; nia).
        destruct (Z.ltb_spec (size * count + extra) extra) as [Habs | _];
          [ unfold in_range in *; nia | ].
        cbn [of_bool Z.lor]. rewrite (neg_zero w size Hr), Z.lor_0_r.
        apply align_floor_pow2; [ exact Hk | unfold in_range in *; nia ].
      + rewrite wrap_sub_modulus by (unfold in_range in *; nia).
        destruct (Z.ltb_spec (size * count + extra - modulus w) extra) as [_ | Habs];
          [ | unfold in_range in *; nia ].
        cbn [of_bool Z.lor]. rewrite (neg_one w size Hr).
        rewrite lor_SIZE_MAX by (unfold in_range in *; nia).
        apply align_floor_SIZE_MAX. exact Hk.
    - assert (Hone : forall b, Z.lor 1 (of_bool b) = 1) by (intros []; reflexivity).
      rewrite Hone, (neg_one w size Hr), lor_SIZE_MAX by exact Hsum.
      apply align_floor_SIZE_MAX. exact Hk. }
  rewrite Hraw. reflexivity.
Qed.

End Saturation.

(** * The alignment helpers *)

(** C7: for a power-of-two [A], [align_floor(A, x)] is [x & ~(A - 1)], the
    greatest multiple of [A] that is at most [x]; and when [x + A - 1]
    fits in a [size_t], [align_ceil(A, x)] is [align_floor(A, x + A - 1)],
    the least multiple of [A] that is at least [x]. *)
Theorem align_floor_ceil_correct (w A x : Z) :
  is_pow2 w A -> in_range w x ->
  (align_floor w A x = Z.land x (not w (A - 1)) /\
   (A | align_floor w A x) /\
   align_floor w A x <= x /\
   (forall m, (A | m) -> m <= x -> m <= align_floor w A x)) /\
  (x + A - 1 < modulus w ->
   align_ceil w A x = align_floor w A (x + A - 1) /\
   (A | align_ceil w A x) /\
   x <= align_ceil w A x /\
   (forall m, (A | m) -> x <= m -> align_ceil w A x <= m)).
Proof.
  intros [k [Hk ->]] Hx. pose proof (pow2_range w k Hk) as [Hp Hm].
  split.
  - rewrite align_floor_pow2 by assumption.
    repeat split.
    + rewrite <- (align_floor_pow2 w k x Hk Hx). unfold align_floor, sub.
      rewrite wrap_small by exact (pred_pow2_range w k Hk). reflexivity.
    + exists (x / 2 ^ k). ring.
    + apply floor_bounds. exact Hp.
    + intros m Hd Hle. apply floor_greatest; assumption.
  - intros Hfit. unfold in_range in Hx.
    assert (E : align_ceil w (2 ^ k) x = align_floor w (2 ^ k) (x + 2 ^ k - 1)).
    { unfold align_ceil. rewrite extra_wrap, wrap_small; [ reflexivity | ].
      unfold in_range; lia. }
    split; [ exact E | ].
    rewrite align_ceil_pow2 by lia.
    repeat split.
    + exists ((x + 2 ^ k - 1) / 2 ^ k). ring.
    + apply ceil_bounds. exact Hp.
    + intros m Hd Hle. apply ceil_least; assumption.
Qed.

Lemma align_floor_ceil_correct_witness :
  (align_floor 64 8 29 = Z.land 29 (not 64 (8 - 1)) /\
   (8 | align_floor 64 8 29) /\
   align_floor 64 8 29 <= 29 /\
   (forall m, (8 | m) -> m <= 29 -> m <= align_floor 64 8 29)) /\
  (29 + 8 - 1 < modulus 64 ->
   align_ceil 64 8 29 = align_floor 64 8 (29 + 8 - 1) /\
   (8 | align_ceil 64 8 29) /\
   29 <= align_ceil 64 8 29 /\
   (forall m, (8 | m) -> 29 <= m -> align_ceil 64 8 29 <= m)).
Proof.
  apply (align_floor_ceil_correct 64 8 29).
  - exists 3. split; [ lia | reflexivity ].
  - unfold in_range, modulus. lia.
Defined.

(** * [array_size] *)

(** C1: for a power-of-two [A], [S > 0] and any count [N],
    [array_size(A, S, N)] is the exact product [S * N] when that fits in a
    [size_t] and the sentinel [~(A - 1)] otherwise, and nothing else; on 64
    bits [array_size(8, 16, SIZE_MAX)] is [0xFFFFFFFFFFFFFFF8]. *)
Theorem array_size_exact_or_sentinel (w A S N : Z) :
  is_pow2 w A -> in_range w S -> 0 < S -> in_range w N ->
  (S * N < modulus w -> array_size w A S N = Some (S * N)) /\
  (modulus w <= S * N -> array_size w A S N = Some (not w (A - 1))) /\
  (array_size w A S N = Some (S * N) \/
   array_size w A S N = Some (not w (A - 1))) /\
  array_size 64 8 16 (SIZE_MAX 64) = Some 0xFFFFFFFFFFFFFFF8.
Proof.
  intros [k [Hk ->]] HS Hpos HN.
  rewrite (array_size_eq w (2 ^ k) S N HS Hpos HN).
  assert (E : sentinel w (2 ^ k) = not w (2 ^ k - 1)).
  { unfold sentinel, sub.
    rewrite wrap_small by exact (pred_pow2_range w k Hk). reflexivity. }
  rewrite E.
  destruct (Z.ltb_spec (S * N) (modulus w)) as [Hfit | Hover].
  - repeat split; try reflexivity; try lia. left; reflexivity.
  - repeat split; try reflexivity; try lia. right; reflexivity.
Qed.

Lemma array_size_exact_or_sentinel_witness :
  (16 * 3 < modulus 64 -> array_size 64 8 16 3 = Some (16 * 3)) /\
  (modulus 64 <= 16 * 3 -> array_size 64 8 16 3 = Some (not 64 (8 - 1))) /\
  (array_size 64 8 16 3 = Some (16 * 3) \/
   array_size 64 8 16 3 = Some (not 64 (8 - 1))) /\
  array_size 64 8 16 (SIZE_MAX 64) = Some 0xFFFFFFFFFFFFFFF8.
Proof.
  apply (array_size_exact_or_sentinel 64 8 16 3).
  - exists 3. split; [ lia | reflexivity ].
  - unfold in_range, modulus. lia.
  - lia.
  - unfold in_range, modulus. lia.
Defined.

(** * [flex_size] *)

Section FlexFacts.

Variable w : Z.

Lemma multiple_le_sentinel (k m : Z) :
  0 <= k < w -> (2 ^ k | m) -> m < modulus w -> m <= modulus w - 2 ^ k.
Proof.
  intros Hk [q ->] Hlt. pose proof (pow2_range w k Hk) as [Hp _].
  rewrite (pow2_divides_modulus w k Hk) in *.
  assert (q < 2 ^ (w - k)) by nia. nia.
Qed.

(** Without overflow the value before the clamp is the sum rounded up. *)
Lemma flex_raw_fits (k offset size count : Z) :
  0 <= k < w -> 0 <= offset -> 0 <= size * count ->
  size * count + offset + 2 ^ k - 1 < modulus w ->
  flex_raw w k offset size count =
  2 ^ k * ((size * count + offset + 2 ^ k - 1) / 2 ^ k).
Proof.
  intros Hk Ho Hp Hfit. pose proof (pow2_range w k Hk) as [Hpos _].
  unfold flex_raw. cbv zeta.
  rewrite wrap_small by (unfold in_range; lia).
  destruct (Z.ltb_spec (size * count) (modulus w)); [ | lia ].
  destruct (Z.ltb_spec (size * count + (offset + 2 ^ k - 1)) (modulus w)); [ | lia ].
  cbn [andb]. do 2 f_equal. lia.
Qed.

(** With overflow it is the sentinel. *)
Lemma flex_raw_overflow (k offset size count : Z) :
  modulus w <= size * count \/
  modulus w <= size * count + wrap w (offset + 2 ^ k - 1) ->
  flex_raw w k offset size count = modulus w - 2 ^ k.
Proof.
  intros Hover. unfold flex_raw. cbv zeta.
  destruct (Z.ltb_spec (size * count) (modulus w)); [ | reflexivity ].
  destruct (Z.ltb_spec (size * count + wrap w (offset + 2 ^ k - 1)) (modulus w));
    [ lia | reflexivity ].
Qed.

Lemma flex_raw_aligned (k offset size count : Z) :
  0 <= k < w -> (2 ^ k | flex_raw w k offset size count).
Proof.
  intros Hk. unfold flex_raw. cbv zeta.
  destruct (_ && _).
  - eexists. apply Z.mul_comm.
  - rewrite (pow2_divides_modulus w k Hk). exists (2 ^ (w - k) - 1). ring.
Qed.

Lemma flex_raw_le_sentinel (k offset size count : Z) :
  0 <= k < w -> flex_raw w k offset size count <= modulus w - 2 ^ k.
Proof.
  intros Hk. pose proof (pow2_range w k Hk) as [Hp _].
  unfold flex_raw. cbv zeta.
  destruct (Z.ltb_spec (size * count) (modulus w)); cbn [andb]; [ | lia ].
  destruct (Z.ltb_spec (size * count + wrap w (offset + 2 ^ k - 1)) (modulus w));
    [ | lia ].
  apply multiple_le_sentinel; [ exact Hk | eexists; apply Z.mul_comm | ].
  pose proof (floor_bounds (2 ^ k) (size * count + wrap w (offset + 2 ^ k - 1)) Hp).
  lia.
Qed.

Lemma flex_raw_mono (k offset size n1 n2 : Z) :
  0 <= k < w -> 0 < size -> n1 <= n2 ->
  flex_raw w k offset size n1 <= flex_raw w k offset size n2.
Proof.
  intros Hk Hs Hle. pose proof (pow2_range w k Hk) as [Hp _].
  pose proof (flex_raw_le_sentinel k offset size n1 Hk) as Hub.
  assert (Hprod : size * n1 <= size * n2) by nia.
  unfold flex_raw in *. cbv zeta in *.
  set (extra := wrap w (offset + 2 ^ k - 1)) in *.
  destruct (Z.ltb_spec (size * n2) (modulus w)); cbn [andb]; [ | exact Hub ].
  destruct (Z.ltb_spec (size * n2 + extra) (modulus w)); [ | exact Hub ].
  destruct (Z.ltb_spec (size * n1) (modulus w)); [ | lia ].
  destruct (Z.ltb_spec (size * n1 + extra) (modulus w)); [ | lia ].
  cbn [andb]. apply Z.mul_le_mono_nonneg_l; [ lia | ].
  apply Z.div_le_mono; lia.
Qed.

End FlexFacts.

(** C9, as stated, fails in its last clause: [flex_size] does not return
    the sentinel on every overflow.  On the very overflow the claim is
    about, [off + A - 1] leaving the word, it adds the wrapped value as
    [align_ceil] does: on 64 bits [flex_size(8, 0, SIZE_MAX, 1, 0)] is [0],
    which is [align_ceil(8, SIZE_MAX)], and not [~7]. *)
Lemma flex_size_wraps_with_align_ceil :
  modulus 64 <= 1 * 0 + SIZE_MAX 64 + 8 - 1 /\
  flex_size 64 8 0 (SIZE_MAX 64) 1 0 = Some 0 /\
  align_ceil 64 8 (SIZE_MAX 64) = 0 /\
  not 64 (8 - 1) = SIZE_MAX 64 - 7 /\
  ~ ((forall A x : Z,
        is_pow2 64 A -> 2 <= A -> in_range 64 x -> SIZE_MAX 64 - (A - 1) < x ->
        modulus 64 <= x + A - 1 /\ align_ceil 64 A x < x) /\
     (forall A S N : Z,
        is_pow2 64 A -> in_range 64 S -> 0 < S -> in_range 64 N ->
        modulus 64 <= S * N ->
        array_size 64 A S N = Some (not 64 (A - 1))) /\
     (forall A min off esz n : Z,
        is_pow2 64 A -> in_range 64 min -> in_range 64 off ->
        in_range 64 esz -> 0 < esz -> in_range 64 n ->
        modulus 64 <= esz * n \/ modulus 64 <= esz * n + off + A - 1 ->
        flex_size 64 A min off esz n = Some (not 64 (A - 1)))).
Proof.
  split; [ vm_compute; discriminate | ].
  split; [ reflexivity | split; [ reflexivity | split; [ reflexivity | ] ] ].
  intros [_ [_ H]].
  assert (E : flex_size 64 8 0 (SIZE_MAX 64) 1 0 = Some (not 64 (8 - 1))).
  { apply H; try (unfold in_range, SIZE_MAX, modulus; lia).
    exists 3. split; [ lia | reflexivity ]. }
  vm_compute in E. discriminate E.
Qed.

(** C9, amended: [align_ceil] does not saturate.  For a power-of-two
    [A >= 2] and [x > SIZE_MAX - (A - 1)] the sum [x + A - 1] leaves the
    word, the computed sum is [x + A - 1 - 2^w], and [align_ceil(A, x)] is
    [0], which is below [x]; [align_ceil(8, SIZE_MAX) = 0] on 64 bits.
    [array_size] returns the sentinel [~(A - 1)] whenever its product
    overflows.  [flex_size] returns it when the product [esz * n]
    overflows or adding the computed [off + A - 1] to it does (a [min]
    above both [align_ceil(A, off)] and the sentinel is returned instead);
    nothing is said of an overflow inside [off + A - 1] itself. *)
Theorem align_ceil_wraps (w A x : Z) :
  is_pow2 w A -> 2 <= A -> in_range w x -> SIZE_MAX w - (A - 1) < x ->
  (modulus w <= x + A - 1 /\
   sub w (add w x A) 1 = x + A - 1 - modulus w /\
   align_ceil w A x = 0 /\
   align_ceil w A x < x) /\
  align_ceil 64 8 (SIZE_MAX 64) = 0 /\
  (forall S N : Z,
     in_range w S -> 0 < S -> in_range w N ->
     modulus w <= S * N ->
     array_size w A S N = Some (not w (A - 1))) /\
  (forall min off esz n : Z,
     in_range w min -> in_range w off -> in_range w esz -> 0 < esz ->
     in_range w n ->
     modulus w <= esz * n \/ modulus w <= esz * n + sub w (add w off A) 1 ->
     flex_size w A min off esz n =
     Some (if (align_ceil w A off <? min) && (not w (A - 1) <? min)
           then min else not w (A - 1))).
Proof.
  intros [k [Hk ->]] HA Hx Hbig. pose proof (pow2_range w k Hk) as [Hp Hm].
  assert (Hnot : not w (2 ^ k - 1) = modulus w - 2 ^ k).
  { rewrite <- sentinel_pow2 by exact Hk. unfold sentinel, sub.
    rewrite wrap_small by exact (pred_pow2_range w k Hk). reflexivity. }
  split; [ | split; [ reflexivity | split ] ].
  - unfold in_range, SIZE_MAX in *.
    assert (Hsum : sub w (add w x (2 ^ k)) 1 = x + 2 ^ k - 1 - modulus w).
    { rewrite extra_wrap. apply wrap_sub_modulus. lia. }
    assert (Hzero : align_ceil w (2 ^ k) x = 0).
    { unfold align_ceil. rewrite Hsum.
      rewrite align_floor_pow2 by (unfold in_range; lia).
      rewrite Z.div_small by lia. ring. }
    repeat split; try lia; assumption.
  - intros S N HS Hpos HN Hover.
    rewrite array_size_eq by assumption.
    destruct (Z.ltb_spec (S * N) (modulus w)); [ lia | ].
    rewrite sentinel_pow2, Hnot by exact Hk. reflexivity.
  - intros min off esz n Hmin Hoff Hesz Hpos Hn Hover.
    rewrite extra_wrap in Hover.
    rewrite flex_size_eq by assumption.
    rewrite flex_raw_overflow by exact Hover.
    rewrite Hnot.
    destruct (Z.ltb_spec (align_ceil w (2 ^ k) off) min);
      destruct (Z.ltb_spec (modulus w - 2 ^ k) min); cbn [andb];
      f_equal; lia.
Qed.

Lemma align_ceil_wraps_witness :
  (modulus 64 <= (SIZE_MAX 64 - 2) + 8 - 1 /\
   sub 64 (add 64 (SIZE_MAX 64 - 2) 8) 1 = (SIZE_MAX 64 - 2) + 8 - 1 - modulus 64 /\
   align_ceil 64 8 (SIZE_MAX 64 - 2) = 0 /\
   align_ceil 64 8 (SIZE_MAX 64 - 2) < SIZE_MAX 64 - 2) /\
  align_ceil 64 8 (SIZE_MAX 64) = 0 /\
  (forall S N : Z,
     in_range 64 S -> 0 < S -> in_range 64 N ->
     modulus 64 <= S * N ->
     array_size 64 8 S N = Some (not 64 (8 - 1))) /\
  (forall min off esz n : Z,
     in_range 64 min -> in_range 64 off -> in_range 64 esz -> 0 < esz ->
     in_range 64 n ->
     modulus 64 <= esz * n \/ modulus 64 <= esz * n + sub 64 (add 64 off 8) 1 ->
     flex_size 64 8 min off esz n =
     Some (if (align_ceil 64 8 off <? min) && (not 64 (8 - 1) <? min)
           then min else not 64 (8 - 1))).
Proof.
  apply (align_ceil_wraps 64 8 (SIZE_MAX 64 - 2)).
  - exists 3. split; [ lia | reflexivity ].
  - lia.
  - unfold in_range, SIZE_MAX, modulus. lia.
  - unfold SIZE_MAX, modulus. lia.
Defined.

(** C5: for a power-of-two [A], [esz > 0] and [off] with [off + A - 1]
    fitting in a [size_t], [flex_size(A, min, off, esz, 0) >= min]; when
    the base struct has more tail padding than the alignment requires
    ([min > align_ceil(A, off)]) the result is [min] itself. *)
Theorem flex_size_zero_ge_min (w A min off esz : Z) :
  is_pow2 w A -> in_range w min -> in_range w off -> in_range w esz ->
  0 < esz -> off + A - 1 < modulus w ->
  exists r,
    flex_size w A min off esz 0 = Some r /\
    min <= r /\
    (align_ceil w A off < min -> r = min).
Proof.
  intros [k [Hk ->]] Hmin Hoff Hesz Hpos Hfit.
  pose proof (pow2_range w k Hk) as [Hp Hm]. unfold in_range in *.
  eexists. split.
  - apply flex_size_eq; unfold in_range; try assumption; lia.
  - rewrite flex_raw_fits by (try assumption; lia).
    rewrite align_ceil_pow2 by (try assumption; lia).
    rewrite Z.mul_0_r, Z.add_0_l.
    destruct (Z.ltb_spec (2 ^ k * ((off + 2 ^ k - 1) / 2 ^ k)) min); split; lia.
Qed.

Lemma flex_size_zero_ge_min_witness :
  exists r,
    flex_size 64 8 32 16 4 0 = Some r /\
    32 <= r /\
    (align_ceil 64 8 16 < 32 -> r = 32).
Proof.
  apply (flex_size_zero_ge_min 64 8 32 16 4);
    try (unfold in_range, modulus; lia).
  exists 3. split; [ lia | reflexivity ].
Defined.

(** C8: when neither the product [esz * n] nor the sum
    [esz * n + off + A - 1] overflows, [flex_size(A, min, off, esz, n)] is
    at least [off + esz * n]: the header and all [n] elements fit. *)
Theorem flex_size_holds_elements (w A min off esz n : Z) :
  is_pow2 w A -> in_range w min -> in_range w off -> in_range w esz ->
  0 < esz -> in_range w n ->
  esz * n < modulus w -> esz * n + off + A - 1 < modulus w ->
  exists r,
    flex_size w A min off esz n = Some r /\ off + esz * n <= r.
Proof.
  intros [k [Hk ->]] Hmin Hoff Hesz Hpos Hn Hprod Hsum.
  pose proof (pow2_range w k Hk) as [Hp Hm]. unfold in_range in *.
  eexists. split.
  - apply flex_size_eq; unfold in_range; try assumption; lia.
  - rewrite flex_raw_fits by (try assumption; nia).
    pose proof (ceil_bounds (2 ^ k) (esz * n + off) Hp).
    destruct (_ <? _); lia.
Qed.

Lemma flex_size_holds_elements_witness :
  exists r, flex_size 64 8 24 20 1 3 = Some r /\ 20 + 1 * 3 <= r.
Proof.
  apply (flex_size_holds_elements 64 8 24 20 1 3);
    try (unfold in_range, modulus; lia).
  exists 3. split; [ lia | reflexivity ].
Defined.

(** C3, as stated, fails: the code rounds the sum up, not down.  For a
    struct of alignment 8, size 24, flexible member at offset 20 with
    1-byte elements and [n = 3], the code returns 24 while
    [align_floor(8, 1 * 3 + 20)] is 16, and no step overflows. *)
Lemma flex_size_not_align_floor_of_sum :
  flex_size 64 8 24 20 1 3 = Some 24 /\
  flex_size_spec 64 8 24 20 1 3 = 16 /\
  ~ (forall A min off esz n : Z,
       is_pow2 64 A -> in_range 64 min -> in_range 64 off ->
       in_range 64 esz -> 0 < esz -> in_range 64 n ->
       esz * n < modulus 64 -> esz * n + off + A - 1 < modulus 64 ->
       flex_size 64 A min off esz n = Some (flex_size_spec 64 A min off esz n)).
Proof.
  split; [ reflexivity | split; [ reflexivity | ] ].
  intros H.
  assert (E : flex_size 64 8 24 20 1 3 = Some (flex_size_spec 64 8 24 20 1 3)).
  { apply H; try (unfold in_range, modulus; lia).
    exists 3. split; [ lia | reflexivity ]. }
  vm_compute in E. discriminate E.
Qed.

(** C3, amended: when no step overflows, [flex_size(A, min, off, esz, n)]
    is [align_floor(A, esz * n + off + A - 1)], that is
    [align_ceil(A, esz * n + off)], the sum rounded up to the alignment,
    raised to [min] exactly when [min > align_ceil(A, off)]. *)
Theorem flex_size_no_overflow (w A min off esz n : Z) :
  is_pow2 w A -> in_range w min -> in_range w off -> in_range w esz ->
  0 < esz -> in_range w n ->
  esz * n < modulus w -> esz * n + off + A - 1 < modulus w ->
  align_floor w A (esz * n + off + A - 1) = align_ceil w A (esz * n + off) /\
  flex_size w A min off esz n =
  Some (if align_ceil w A off <? min
        then Z.max min (align_ceil w A (esz * n + off))
        else align_ceil w A (esz * n + off)).
Proof.
  intros [k [Hk ->]] Hmin Hoff Hesz Hpos Hn Hprod Hsum.
  pose proof (pow2_range w k Hk) as [Hp Hm]. unfold in_range in *.
  assert (Hnn : 0 <= esz * n) by nia.
  rewrite align_floor_pow2 by (unfold in_range; lia).
  rewrite (align_ceil_pow2 w k (esz * n + off)) by lia.
  split; [ reflexivity | ].
  rewrite flex_size_eq by (unfold in_range; lia).
  rewrite flex_raw_fits by (try assumption; lia).
  reflexivity.
Qed.

Lemma flex_size_no_overflow_witness :
  align_floor 64 8 (1 * 3 + 20 + 8 - 1) = align_ceil 64 8 (1 * 3 + 20) /\
  flex_size 64 8 24 20 1 3 =
  Some (if align_ceil 64 8 20 <? 24
        then Z.max 24 (align_ceil 64 8 (1 * 3 + 20))
        else align_ceil 64 8 (1 * 3 + 20)).
Proof.
  apply (flex_size_no_overflow 64 8 24 20 1 3);
    try (unfold in_range, modulus; lia).
  exists 3. split; [ lia | reflexivity ].
Defined.

(** C2, as stated, fails for a [min] above the sentinel: with [A = 8],
    [min = SIZE_MAX], [off = 0], [esz = 16] and [n = SIZE_MAX] the product
    overflows, [ret] becomes [~7], and the clamp then raises it to [min]. *)
Lemma flex_size_overflow_returns_min :
  modulus 64 <= 16 * SIZE_MAX 64 /\
  flex_size 64 8 (SIZE_MAX 64) 0 16 (SIZE_MAX 64) = Some (SIZE_MAX 64) /\
  not 64 (8 - 1) = SIZE_MAX 64 - 7 /\
  ~ (forall A min off esz n : Z,
       is_pow2 64 A -> in_range 64 min -> in_range 64 off ->
       in_range 64 esz -> 0 < esz -> in_range 64 n ->
       modulus 64 <= esz * n \/ modulus 64 <= esz * n + off + A - 1 ->
       flex_size 64 A min off esz n = Some (not 64 (A - 1))).
Proof.
  split; [ vm_compute; discriminate | ].
  split; [ reflexivity | split; [ reflexivity | ] ].
  intros H.
  assert (E : flex_size 64 8 (SIZE_MAX 64) 0 16 (SIZE_MAX 64) = Some (not 64 (8 - 1))).
  { apply H; try (unfold in_range, SIZE_MAX, modulus; lia).
    exists 3. split; [ lia | reflexivity ]. }
  vm_compute in E. discriminate E.
Qed.

(** C2, amended: when the product [esz * n] overflows, or adding
    [off + A - 1] (as computed in a [size_t], which is the exact sum when
    that fits) to it does, [flex_size] returns the sentinel [~(A - 1)],
    except that a [min] above both [align_ceil(A, off)] and the sentinel is
    returned instead.  So the result is the sentinel whenever
    [min <= ~(A - 1)], and it is never below the sentinel. *)
Theorem flex_size_saturates (w A min off esz n : Z) :
  is_pow2 w A -> in_range w min -> in_range w off -> in_range w esz ->
  0 < esz -> in_range w n ->
  modulus w <= esz * n \/ modulus w <= esz * n + sub w (add w off A) 1 ->
  (off + A - 1 < modulus w -> sub w (add w off A) 1 = off + A - 1) /\
  flex_size w A min off esz n =
  Some (if (align_ceil w A off <? min) && (not w (A - 1) <? min)
        then min else not w (A - 1)) /\
  (min <= not w (A - 1) -> flex_size w A min off esz n = Some (not w (A - 1))) /\
  (exists r, flex_size w A min off esz n = Some r /\ not w (A - 1) <= r).
Proof.
  intros [k [Hk ->]] Hmin Hoff Hesz Hpos Hn Hover.
  rewrite extra_wrap in *.
  split.
  { intros Hfit. apply wrap_small. pose proof (pow2_range w k Hk).
    unfold in_range in *. lia. }
  rewrite flex_size_eq by assumption.
  rewrite flex_raw_overflow by exact Hover.
  replace (not w (2 ^ k - 1)) with (modulus w - 2 ^ k).
  2:{ rewrite <- sentinel_pow2 by exact Hk. unfold sentinel, sub.
      rewrite wrap_small by exact (pred_pow2_range w k Hk). reflexivity. }
  destruct (Z.ltb_spec (align_ceil w (2 ^ k) off) min);
    destruct (Z.ltb_spec (modulus w - 2 ^ k) min); cbn [andb];
    repeat split;
    try (intros ?); try (eexists; split; [ reflexivity | ]);
    try (f_equal; lia); try lia.
Qed.

Lemma flex_size_saturates_witness :
  (16 + 8 - 1 < modulus 64 -> sub 64 (add 64 16 8) 1 = 16 + 8 - 1) /\
  flex_size 64 8 24 16 8 (SIZE_MAX 64) =
  Some (if (align_ceil 64 8 16 <? 24) && (not 64 (8 - 1) <? 24)
        then 24 else not 64 (8 - 1)) /\
  (24 <= not 64 (8 - 1) ->
   flex_size 64 8 24 16 8 (SIZE_MAX 64) = Some (not 64 (8 - 1))) /\
  (exists r, flex_size 64 8 24 16 8 (SIZE_MAX 64) = Some r /\ not 64 (8 - 1) <= r).
Proof.
  apply (flex_size_saturates 64 8 24 16 8 (SIZE_MAX 64));
    try (unfold in_range, SIZE_MAX, modulus; lia).
  exists 3. split; [ lia | reflexivity ].
Defined.

(** C4: for a struct layout with power-of-two alignment [A], size [min] a
    multiple of [A] with [min >= align_ceil(A, off)], flexible member at
    [off <= min] and elements of size [esz > 0],
    [sizeof_flex(T, m, count)] is monotonic non-decreasing in [count], a
    multiple of [A], and at least [min], for every [count]. *)
Theorem sizeof_flex_monotone_aligned (w : Z) (T : layout) (n1 n2 : Z) :
  is_pow2 w (alignof T) ->
  in_range w (sizeof T) -> (alignof T | sizeof T) ->
  align_ceil w (alignof T) (offsetof T) <= sizeof T ->
  0 <= offsetof T <= sizeof T ->
  in_range w (sizeof_member T) -> 0 < sizeof_member T ->
  in_range w n1 -> in_range w n2 -> n1 <= n2 ->
  exists r1 r2,
    sizeof_flex w T n1 = Some r1 /\
    sizeof_flex w T n2 = Some r2 /\
    r1 <= r2 /\
    (alignof T | r1) /\ (alignof T | r2) /\
    sizeof T <= r1 /\ sizeof T <= r2.
Proof.
  destruct T as [A min off esz]. unfold sizeof_flex. cbn [alignof sizeof offsetof sizeof_member].
  intros [k [Hk ->]] Hmin Hdiv Hceil Hoff Hesz Hpos Hn1 Hn2 Hle.
  pose proof (pow2_range w k Hk) as [Hp Hm].
  assert (Htop : min <= modulus w - 2 ^ k)
    by (apply multiple_le_sentinel; [ exact Hk | exact Hdiv | apply Hmin ]).
  rewrite align_ceil_pow2 in Hceil by lia.
  rewrite !flex_size_eq by assumption.
  rewrite align_ceil_pow2 by lia.
  pose proof (flex_raw_mono w k off esz n1 n2 Hk Hpos Hle) as Hmono.
  pose proof (flex_raw_aligned w k off esz n1 Hk) as Hal1.
  pose proof (flex_raw_aligned w k off esz n2 Hk) as Hal2.
  assert (Hzero : flex_raw w k off esz 0 = 2 ^ k * ((off + 2 ^ k - 1) / 2 ^ k)).
  { rewrite flex_raw_fits by (try assumption; lia).
    rewrite Z.mul_0_r, Z.add_0_l. reflexivity. }
  pose proof (flex_raw_mono w k off esz 0 n1 Hk Hpos (proj1 Hn1)) as Hlow.
  rewrite Hzero in Hlow.
  do 2 eexists. split; [ reflexivity | split; [ reflexivity | ] ].
  destruct (Z.ltb_spec (2 ^ k * ((off + 2 ^ k - 1) / 2 ^ k)) min) as [Hpad | Hnopad].
  - repeat split; try lia.
    + destruct (Z.max_spec min (flex_raw w k off esz n1)) as [[_ ->] | [_ ->]];
        assumption.
    + destruct (Z.max_spec min (flex_raw w k off esz n2)) as [[_ ->] | [_ ->]];
        assumption.
  - repeat split; try assumption; lia.
Qed.

Lemma sizeof_flex_monotone_aligned_witness :
  exists r1 r2,
    sizeof_flex 64 (Build_layout 8 24 20 1) 3 = Some r1 /\
    sizeof_flex 64 (Build_layout 8 24 20 1) 5 = Some r2 /\
    r1 <= r2 /\
    (8 | r1) /\ (8 | r2) /\
    24 <= r1 /\ 24 <= r2.
Proof.
  apply (sizeof_flex_monotone_aligned 64 (Build_layout 8 24 20 1) 3 5);
    cbn [alignof sizeof offsetof sizeof_member];
    try (unfold in_range, modulus; lia).
  - exists 3. split; [ lia | reflexivity ].
  - exists 3. reflexivity.
  - vm_compute. discriminate.
Defined.

(** C10: [array_size] and [flex_size] divide by their element-size
    argument unconditionally.  With [size > 0] the division is defined and
    both functions return a [size_t]; with [size = 0] neither has a
    defined result, whatever the other arguments. *)
Theorem size_zero_is_precondition (w align min offset size count : Z) :
  (0 < size -> in_range w size ->
   (exists q, div (mul w size count) size = Some q) /\
   (exists r, array_size w align size count = Some r /\ in_range w r) /\
   (exists r, flex_size w align min offset size count = Some r)) /\
  div (mul w 0 count) 0 = None /\
  array_size w align 0 count = None /\
  flex_size w align min offset 0 count = None.
Proof.
  split; [ | repeat split; reflexivity ].
  intros Hpos Hr. split; [ | split ].
  - eexists. apply div_pos. exact Hpos.
  - unfold array_size. cbv zeta. rewrite div_pos by exact Hpos. cbn [bind].
    eexists. split; [ reflexivity | ].
    destruct (_ =? _).
    + apply (wrap_range w _ size Hr).
    + apply (wrap_range w _ size Hr).
  - unfold flex_size. cbv zeta. rewrite div_pos by exact Hpos. cbn [bind].
    eexists. reflexivity.
Qed.

Lemma size_zero_is_precondition_witness :
  (exists q, div (mul 64 16 3) 16 = Some q) /\
  (exists r, array_size 64 8 16 3 = Some r /\ in_range 64 r) /\
  (exists r, flex_size 64 8 24 16 16 3 = Some r).
Proof.
  apply (proj1 (size_zero_is_precondition 64 8 24 16 16 3)).
  - lia.
  - unfold in_range, modulus. lia.
Defined.

(** Scenario S1 and a few layouts, evaluated. *)
Example array_size_S1 :
  array_size 64 8 16 (SIZE_MAX 64) = Some 0xFFFFFFFFFFFFFFF8.
Proof. reflexivity. Qed.

Example flex_size_padded_base :
  flex_size 64 8 32 16 4 0 = Some 32 /\ flex_size 64 8 32 16 4 5 = Some 40.
Proof. split; reflexivity. Qed.

(** An overflow inside [offset + align - 1] itself is not detected: the
    wrapped value is what gets added. *)
Example flex_size_extra_wraps :
  flex_size 64 8 0 (SIZE_MAX 64) 1 0 = Some 0.
Proof. reflexivity. Qed.

(** * Further laws of the alignment helpers *)

Section AlignmentLaws.

Variable w : Z.

(** Masking never increases a non-negative value. *)
Lemma land_le (x m : Z) : 0 <= x -> 0 <= Z.land x m <= x.
Proof.
  intros Hx. split; [ apply Z.land_nonneg; left; exact Hx | ].
  pose proof (Z.add_lor_land (Z.ldiff x m) (Z.land x m)) as E.
  rewrite Z.lor_ldiff_and in E.
  replace (Z.land (Z.ldiff x m) (Z.land x m)) with 0 in E.
  2:{ rewrite (Z.land_comm x m), Z.land_assoc, Z.land_ldiff. reflexivity. }
  assert (0 <= Z.ldiff x m) by (apply Z.ldiff_nonneg; left; exact Hx).
  lia.
Qed.

Lemma aligned_floor (a x : Z) : 0 < a -> (a | x) -> a * (x / a) = x.
Proof.
  intros Ha [q ->]. rewrite Z.div_mul by lia. ring.
Qed.

Lemma aligned_ceil (a x : Z) : 0 < a -> (a | x) -> a * ((x + a - 1) / a) = x.
Proof.
  intros Ha [q ->].
  replace (q * a + a - 1) with ((a - 1) + q * a) by ring.
  rewrite Z.div_add by lia. rewrite Z.div_small by lia. ring.
Qed.

Lemma unaligned_ceil (a x : Z) :
  0 < a -> ~ (a | x) -> a * ((x + a - 1) / a) = a * (x / a) + a.
Proof.
  intros Ha Hn.
  pose proof (floor_bounds a x Ha) as Hf.
  pose proof (floor_bounds a (x + a - 1) Ha) as Hc.
  assert (Hne : a * (x / a) <> x).
  { intros E. apply Hn. exists (x / a). lia. }
  assert (x / a < (x + a - 1) / a) by nia.
  assert ((x + a - 1) / a < x / a + 2) by nia.
  nia.
Qed.

Lemma align_floor_fixed (k x : Z) :
  0 <= k < w -> in_range w x -> (2 ^ k | x) -> align_floor w (2 ^ k) x = x.
Proof.
  intros Hk Hx Hd. rewrite align_floor_pow2 by assumption.
  apply aligned_floor; [ apply (pow2_range w k Hk) | exact Hd ].
Qed.

(** An aligned [size_t] is at most the sentinel, so rounding it up cannot
    overflow. *)
Lemma align_ceil_fixed (k x : Z) :
  0 <= k < w -> in_range w x -> (2 ^ k | x) -> align_ceil w (2 ^ k) x = x.
Proof.
  intros Hk Hx Hd. pose proof (pow2_range w k Hk) as [Hp _].
  pose proof (multiple_le_sentinel w k x Hk Hd (proj2 Hx)).
  rewrite align_ceil_pow2 by (unfold in_range in Hx; lia).
  apply aligned_ceil; assumption.
Qed.

Lemma align_floor_range (k x : Z) :
  0 <= k < w -> in_range w x ->
  in_range w (align_floor w (2 ^ k) x) /\ (2 ^ k | align_floor w (2 ^ k) x).
Proof.
  intros Hk Hx. pose proof (pow2_range w k Hk) as [Hp _].
  rewrite align_floor_pow2 by assumption.
  pose proof (floor_bounds (2 ^ k) x Hp).
  assert (0 <= x / 2 ^ k) by (apply Z.div_pos; unfold in_range in Hx; lia).
  split; [ unfold in_range in *; nia | apply Z.divide_factor_l ].
Qed.

Lemma align_ceil_range (k x : Z) :
  0 <= k < w -> in_range w x ->
  in_range w (align_ceil w (2 ^ k) x) /\ (2 ^ k | align_ceil w (2 ^ k) x).
Proof.
  intros Hk Hx. unfold align_ceil.
  apply align_floor_range; [ exact Hk | ].
  rewrite extra_wrap. apply (wrap_range w _ x Hx).
Qed.

(** Past the sentinel the sum wraps and the result is 0. *)
Lemma align_ceil_overflow (k x : Z) :
  0 <= k < w -> in_range w x -> modulus w <= x + 2 ^ k - 1 ->
  align_ceil w (2 ^ k) x = 0.
Proof.
  intros Hk Hx Hover. pose proof (pow2_range w k Hk) as [Hp Hm].
  unfold in_range in Hx.
  unfold align_ceil. rewrite extra_wrap.
  rewrite wrap_sub_modulus by lia.
  rewrite align_floor_pow2 by (unfold in_range; lia).
  rewrite Z.div_small by lia. ring.
Qed.

Lemma ceil_is_modulus (k x : Z) :
  0 <= k < w -> x < modulus w -> modulus w <= x + 2 ^ k - 1 ->
  2 ^ k * ((x + 2 ^ k - 1) / 2 ^ k) = modulus w.
Proof.
  intros Hk Hx Hover. pose proof (pow2_range w k Hk) as [Hp _].
  rewrite (pow2_divides_modulus w k Hk) in *.
  replace (x + 2 ^ k - 1)
    with ((x + 2 ^ k - 1 - 2 ^ k * 2 ^ (w - k)) + 2 ^ (w - k) * 2 ^ k) by ring.
  rewrite Z.div_add by lia. rewrite Z.div_small by lia. ring.
Qed.

End AlignmentLaws.

(** X1: for any [align] whatever, power of two or not, [align_floor] yields
    a [size_t] that is at most [size]: masking never rounds up. *)
Theorem align_floor_never_above (w align size : Z) :
  in_range w size ->
  0 <= align_floor w align size <= size /\ in_range w (align_floor w align size).
Proof.
  intros H. unfold align_floor.
  pose proof (land_le size (not w (sub w align 1)) (proj1 H)).
  unfold in_range in *. lia.
Qed.

Lemma align_floor_never_above_witness :
  0 <= align_floor 64 6 13 <= 13 /\ in_range 64 (align_floor 64 6 13).
Proof.
  apply (align_floor_never_above 64 6 13). unfold in_range, modulus. lia.
Defined.

(** X2: a value that is already a multiple of the power-of-two alignment is
    left alone by both helpers; for [align_ceil] this needs no overflow
    condition, because an aligned [size_t] is at most [~(A - 1)]. *)
Theorem align_fixes_aligned (w A x : Z) :
  is_pow2 w A -> in_range w x -> (A | x) ->
  align_floor w A x = x /\ align_ceil w A x = x.
Proof.
  intros [k [Hk ->]] Hx Hd. split.
  - apply align_floor_fixed; assumption.
  - apply align_ceil_fixed; assumption.
Qed.

Lemma align_fixes_aligned_witness :
  align_floor 64 8 (SIZE_MAX 64 - 7) = SIZE_MAX 64 - 7 /\
  align_ceil 64 8 (SIZE_MAX 64 - 7) = SIZE_MAX 64 - 7.
Proof.
  apply (align_fixes_aligned 64 8 (SIZE_MAX 64 - 7)).
  - exists 3. split; [ lia | reflexivity ].
  - unfold in_range, SIZE_MAX, modulus. lia.
  - exists 2305843009213693951. reflexivity.
Defined.

(** X3: both helpers are idempotent on every [size_t], also where
    [align_ceil] wraps. *)
Theorem align_idempotent (w A x : Z) :
  is_pow2 w A -> in_range w x ->
  align_floor w A (align_floor w A x) = align_floor w A x /\
  align_ceil w A (align_ceil w A x) = align_ceil w A x.
Proof.
  intros [k [Hk ->]] Hx. split.
  - destruct (align_floor_range w k x Hk Hx) as [Hr Hd].
    apply align_floor_fixed; assumption.
  - destruct (align_ceil_range w k x Hk Hx) as [Hr Hd].
    apply align_ceil_fixed; assumption.
Qed.

Lemma align_idempotent_witness :
  align_floor 64 8 (align_floor 64 8 29) = align_floor 64 8 29 /\
  align_ceil 64 8 (align_ceil 64 8 29) = align_ceil 64 8 29.
Proof.
  apply (align_idempotent 64 8 29).
  - exists 3. split; [ lia | reflexivity ].
  - unfold in_range, modulus. lia.
Defined.

(** X4: on every [size_t], [align_ceil(A, x)] is the least multiple of [A]
    at or above [x], reduced modulo [2^w]. *)
Theorem align_ceil_modular (w A x : Z) :
  is_pow2 w A -> in_range w x ->
  align_ceil w A x = wrap w (A * ((x + A - 1) / A)).
Proof.
  intros [k [Hk ->]] Hx. pose proof (pow2_range w k Hk) as [Hp Hm].
  destruct (Z.lt_ge_cases (x + 2 ^ k - 1) (modulus w)) as [Hfit | Hover].
  - rewrite align_ceil_pow2 by (unfold in_range in Hx; lia).
    symmetry. apply wrap_small.
    pose proof (floor_bounds (2 ^ k) (x + 2 ^ k - 1) Hp).
    assert (0 <= (x + 2 ^ k - 1) / 2 ^ k)
      by (apply Z.div_pos; unfold in_range in Hx; lia).
    unfold in_range in *. nia.
  - rewrite align_ceil_overflow by assumption.
    rewrite (ceil_is_modulus w k x) by (try assumption; apply Hx).
    unfold wrap. symmetry. apply Z.mod_same. lia.
Qed.

Lemma align_ceil_modular_witness :
  align_ceil 64 8 (SIZE_MAX 64) = wrap 64 (8 * ((SIZE_MAX 64 + 8 - 1) / 8)).
Proof.
  apply (align_ceil_modular 64 8 (SIZE_MAX 64)).
  - exists 3. split; [ lia | reflexivity ].
  - unfold in_range, SIZE_MAX, modulus. lia.
Defined.

(** X5: when [x + A - 1] fits, rounding up and rounding down agree on a
    multiple of [A] and differ by exactly [A] otherwise, and rounding up
    adds less than [A]. *)
Theorem align_ceil_floor_gap (w A x : Z) :
  is_pow2 w A -> in_range w x -> x + A - 1 < modulus w ->
  ((A | x) -> align_ceil w A x = align_floor w A x) /\
  (~ (A | x) -> align_ceil w A x = align_floor w A x + A) /\
  align_ceil w A x - x < A /\
  x - align_floor w A x < A.
Proof.
  intros [k [Hk ->]] Hx Hfit. pose proof (pow2_range w k Hk) as [Hp Hm].
  rewrite align_ceil_pow2 by (unfold in_range in Hx; lia).
  rewrite align_floor_pow2 by assumption.
  pose proof (ceil_bounds (2 ^ k) x Hp). pose proof (floor_bounds (2 ^ k) x Hp).
  repeat split; try lia.
  - intros Hd. rewrite aligned_ceil, aligned_floor by assumption. reflexivity.
  - intros Hn. apply unaligned_ceil; assumption.
Qed.

Lemma align_ceil_floor_gap_witness :
  ((8 | 29) -> align_ceil 64 8 29 = align_floor 64 8 29) /\
  (~ (8 | 29) -> align_ceil 64 8 29 = align_floor 64 8 29 + 8) /\
  align_ceil 64 8 29 - 29 < 8 /\
  29 - align_floor 64 8 29 < 8.
Proof.
  apply (align_ceil_floor_gap 64 8 29).
  - exists 3. split; [ lia | reflexivity ].
  - unfold in_range, modulus. lia.
  - unfold modulus. lia.
Defined.

(** X6: both helpers are monotonic: [align_floor] on all of [size_t],
    [align_ceil] as long as the larger argument does not wrap. *)
Theorem align_monotone (w A x y : Z) :
  is_pow2 w A -> in_range w x -> in_range w y -> x <= y ->
  align_floor w A x <= align_floor w A y /\
  (y + A - 1 < modulus w -> align_ceil w A x <= align_ceil w A y).
Proof.
  intros [k [Hk ->]] Hx Hy Hle. pose proof (pow2_range w k Hk) as [Hp Hm].
  split.
  - rewrite !align_floor_pow2 by assumption.
    apply Z.mul_le_mono_nonneg_l; [ lia | apply Z.div_le_mono; lia ].
  - intros Hfit. unfold in_range in *.
    rewrite !align_ceil_pow2 by lia.
    apply ceil_mono; assumption.
Qed.

Lemma align_monotone_witness :
  align_floor 64 8 29 <= align_floor 64 8 33 /\
  (33 + 8 - 1 < modulus 64 -> align_ceil 64 8 29 <= align_ceil 64 8 33).
Proof.
  apply (align_monotone 64 8 29 33);
    try (unfold in_range, modulus; lia).
  exists 3. split; [ lia | reflexivity ].
Defined.

(** * Further laws of the saturating sizes *)

Section SizeLaws.

Variable w : Z.

Lemma not_pred_pow2 (k : Z) :
  0 <= k < w -> not w (2 ^ k - 1) = modulus w - 2 ^ k.
Proof.
  intros Hk. rewrite <- sentinel_pow2 by exact Hk. unfold sentinel, sub.
  rewrite wrap_small by exact (pred_pow2_range w k Hk). reflexivity.
Qed.

Lemma sentinel_aligned (k : Z) : 0 <= k < w -> (2 ^ k | modulus w - 2 ^ k).
Proof.
  intros Hk. rewrite (pow2_divides_modulus w k Hk).
  exists (2 ^ (w - k) - 1). ring.
Qed.

(** What [array_size] returns for an element size that is a multiple of
    the alignment. *)
Lemma array_size_value_bounds (k size count : Z) :
  0 <= k < w -> in_range w size -> 0 < size -> (2 ^ k | size) ->
  in_range w count ->
  let r := if size * count <? modulus w then size * count else modulus w - 2 ^ k in
  array_size w (2 ^ k) size count = Some r /\
  0 <= r <= modulus w - 2 ^ k /\ (2 ^ k | r).
Proof.
  intros Hk Hs Hpos Hd Hc r. subst r.
  pose proof (pow2_range w k Hk) as [Hp Hm].
  rewrite array_size_eq, sentinel_pow2 by assumption.
  split; [ reflexivity | ].
  destruct (Z.ltb_spec (size * count) (modulus w)) as [Hfit | Hover].
  - assert (Hdp : (2 ^ k | size * count)) by (apply Z.divide_mul_l; exact Hd).
    pose proof (multiple_le_sentinel w k _ Hk Hdp Hfit).
    unfold in_range in *. split; [ nia | exact Hdp ].
  - split; [ lia | apply sentinel_aligned; exact Hk ].
Qed.

Lemma flex_raw_nonneg (k offset size count : Z) :
  0 <= k < w -> 0 <= size * count -> 0 <= flex_raw w k offset size count.
Proof.
  intros Hk Hp. pose proof (pow2_range w k Hk) as [Hpos Hm].
  unfold flex_raw. cbv zeta.
  assert (0 <= wrap w (offset + 2 ^ k - 1))
    by (apply Z.mod_pos_bound; lia).
  destruct (_ && _); [ | lia ].
  apply Z.mul_nonneg_nonneg; [ lia | apply Z.div_pos; lia ].
Qed.

End SizeLaws.

(** X7: when the element size is a multiple of the power-of-two alignment
    (as [sizeof(type)] is of [alignof(type)]), [array_size] always yields a
    [size_t] that is a multiple of the alignment and at most [~(A - 1)],
    saturated or not. *)
Theorem array_size_aligned (w A S N : Z) :
  is_pow2 w A -> in_range w S -> 0 < S -> (A | S) -> in_range w N ->
  exists r,
    array_size w A S N = Some r /\
    in_range w r /\ (A | r) /\ r <= not w (A - 1).
Proof.
  intros [k [Hk ->]] HS Hpos Hd HN.
  pose proof (pow2_range w k Hk) as [Hp Hm].
  destruct (array_size_value_bounds w k S N Hk HS Hpos Hd HN) as [E [Hb Ha]].
  eexists. split; [ exact E | ].
  rewrite not_pred_pow2 by exact Hk.
  unfold in_range. repeat split; try lia. exact Ha.
Qed.

Lemma array_size_aligned_witness :
  exists r,
    array_size 64 8 16 (SIZE_MAX 64) = Some r /\
    in_range 64 r /\ (8 | r) /\ r <= not 64 (8 - 1).
Proof.
  apply (array_size_aligned 64 8 16 (SIZE_MAX 64));
    try (unfold in_range, SIZE_MAX, modulus; lia).
  - exists 3. split; [ lia | reflexivity ].
  - exists 2. reflexivity.
Defined.

(** X8: under the same condition [array_size] is monotonic non-decreasing
    in the count: a saturated result is never below an exact one. *)
Theorem array_size_monotone (w A S N1 N2 : Z) :
  is_pow2 w A -> in_range w S -> 0 < S -> (A | S) ->
  in_range w N1 -> in_range w N2 -> N1 <= N2 ->
  exists r1 r2,
    array_size w A S N1 = Some r1 /\
    array_size w A S N2 = Some r2 /\
    r1 <= r2.
Proof.
  intros [k [Hk ->]] HS Hpos Hd HN1 HN2 Hle.
  destruct (array_size_value_bounds w k S N1 Hk HS Hpos Hd HN1) as [E1 [Hb1 _]].
  destruct (array_size_value_bounds w k S N2 Hk HS Hpos Hd HN2) as [E2 [Hb2 _]].
  do 2 eexists. split; [ exact E1 | split; [ exact E2 | ] ].
  destruct (Z.ltb_spec (S * N2) (modulus w)); [ | lia ].
  destruct (Z.ltb_spec (S * N1) (modulus w)); nia.
Qed.

Lemma array_size_monotone_witness :
  exists r1 r2,
    array_size 64 8 16 5 = Some r1 /\
    array_size 64 8 16 (SIZE_MAX 64) = Some r2 /\
    r1 <= r2.
Proof.
  apply (array_size_monotone 64 8 16 5 (SIZE_MAX 64));
    try (unfold in_range, SIZE_MAX, modulus; lia).
  - exists 3. split; [ lia | reflexivity ].
  - exists 2. reflexivity.
Defined.

(** X9: a flexible struct with an empty header is an array: for an element
    size that is a multiple of the alignment,
    [flex_size(A, 0, 0, S, N) = array_size(A, S, N)], saturation included. *)
Theorem flex_size_empty_header (w A S N : Z) :
  is_pow2 w A -> in_range w S -> 0 < S -> (A | S) -> in_range w N ->
  flex_size w A 0 0 S N = array_size w A S N.
Proof.
  intros [k [Hk ->]] HS Hpos Hd HN.
  pose proof (pow2_range w k Hk) as [Hp Hm].
  rewrite flex_size_eq, array_size_eq, sentinel_pow2 by assumption.
  assert (Hz : in_range w 0) by (unfold in_range; lia).
  rewrite (align_ceil_fixed w k 0 Hk Hz (Z.divide_0_r _)).
  rewrite Z.ltb_irrefl. f_equal.
  unfold flex_raw. cbv zeta. rewrite Z.add_0_l.
  rewrite wrap_small by exact (pred_pow2_range w k Hk).
  destruct (Z.ltb_spec (S * N) (modulus w)) as [Hfit | Hover];
    cbn [andb]; [ | reflexivity ].
  assert (Hdp : (2 ^ k | S * N)) by (apply Z.divide_mul_l; exact Hd).
  pose proof (multiple_le_sentinel w k _ Hk Hdp Hfit).
  destruct (Z.ltb_spec (S * N + (2 ^ k - 1)) (modulus w)); [ | lia ].
  replace (S * N + (2 ^ k - 1)) with (S * N + 2 ^ k - 1) by ring.
  apply aligned_ceil; assumption.
Qed.

Lemma flex_size_empty_header_witness :
  flex_size 64 8 0 0 16 5 = array_size 64 8 16 5.
Proof.
  apply (flex_size_empty_header 64 8 16 5);
    try (unfold in_range, modulus; lia).
  - exists 3. split; [ lia | reflexivity ].
  - exists 2. reflexivity.
Defined.

(** X10: for a struct layout as in C4 (size a multiple of the alignment and
    at least [align_ceil(A, off)], member offset within the struct),
    [sizeof_flex(T, m, 0)] is exactly [sizeof(T)]. *)
Theorem sizeof_flex_zero (w : Z) (T : layout) :
  is_pow2 w (alignof T) ->
  in_range w (sizeof T) -> (alignof T | sizeof T) ->
  align_ceil w (alignof T) (offsetof T) <= sizeof T ->
  0 <= offsetof T <= sizeof T ->
  in_range w (sizeof_member T) -> 0 < sizeof_member T ->
  sizeof_flex w T 0 = Some (sizeof T).
Proof.
  destruct T as [A min off esz]. unfold sizeof_flex.
  cbn [alignof sizeof offsetof sizeof_member].
  intros [k [Hk ->]] Hmin Hdiv Hceil Hoff Hesz Hpos.
  pose proof (pow2_range w k Hk) as [Hp Hm].
  assert (Htop : min <= modulus w - 2 ^ k)
    by (apply multiple_le_sentinel; [ exact Hk | exact Hdiv | apply Hmin ]).
  rewrite flex_size_eq by (try assumption; unfold in_range in *; lia).
  rewrite flex_raw_fits by (try assumption; lia).
  rewrite align_ceil_pow2 in * by lia.
  rewrite Z.mul_0_r, Z.add_0_l. f_equal.
  destruct (Z.ltb_spec (2 ^ k * ((off + 2 ^ k - 1) / 2 ^ k)) min); lia.
Qed.

Lemma sizeof_flex_zero_witness :
  sizeof_flex 64 (Build_layout 8 32 16 4) 0 = Some 32.
Proof.
  apply (sizeof_flex_zero 64 (Build_layout 8 32 16 4));
    cbn [alignof sizeof offsetof sizeof_member];
    try (unfold in_range, modulus; lia).
  - exists 3. split; [ lia | reflexivity ].
  - exists 4. reflexivity.
  - vm_compute. discriminate.
Defined.

(** X11: without overflow [flex_size] wastes less than one alignment unit:
    the result is below [off + esz * n + A] unless the clamp raised it to
    [min]. *)
Theorem flex_size_tight (w A min off esz n : Z) :
  is_pow2 w A -> in_range w min -> in_range w off -> in_range w esz ->
  0 < esz -> in_range w n ->
  esz * n + off + A - 1 < modulus w ->
  exists r,
    flex_size w A min off esz n = Some r /\
    (r < off + esz * n + A \/ (r = min /\ align_ceil w A off < min)).
Proof.
  intros [k [Hk ->]] Hmin Hoff Hesz Hpos Hn Hsum.
  pose proof (pow2_range w k Hk) as [Hp Hm]. unfold in_range in *.
  eexists. split.
  - apply flex_size_eq; unfold in_range; try assumption; lia.
  - rewrite flex_raw_fits by (try assumption; nia).
    pose proof (ceil_bounds (2 ^ k) (esz * n + off) Hp).
    destruct (Z.ltb_spec (align_ceil w (2 ^ k) off) min); [ | left; lia ].
    destruct (Z.max_spec min (2 ^ k * ((esz * n + off + 2 ^ k - 1) / 2 ^ k)))
      as [[_ ->] | [_ ->]]; [ left; lia | right; split; [ reflexivity | assumption ] ].
Qed.

Lemma flex_size_tight_witness :
  exists r,
    flex_size 64 8 24 20 1 3 = Some r /\
    (r < 20 + 1 * 3 + 8 \/ (r = 24 /\ align_ceil 64 8 20 < 24)).
Proof.
  apply (flex_size_tight 64 8 24 20 1 3);
    try (unfold in_range, modulus; lia).
  exists 3. split; [ lia | reflexivity ].
Defined.

(** X12: for every offset and count, overflowing or not, [flex_size]
    yields a [size_t]; it is a multiple of the alignment whenever [min]
    is. *)
Theorem flex_size_valid (w A min off esz n : Z) :
  is_pow2 w A -> in_range w min -> in_range w off -> in_range w esz ->
  0 < esz -> in_range w n ->
  exists r,
    flex_size w A min off esz n = Some r /\
    in_range w r /\
    ((A | min) -> (A | r)).
Proof.
  intros [k [Hk ->]] Hmin Hoff Hesz Hpos Hn.
  pose proof (pow2_range w k Hk) as [Hp Hm].
  eexists. split; [ apply flex_size_eq; assumption | ].
  pose proof (flex_raw_le_sentinel w k off esz n Hk) as Hub.
  assert (Hnn : 0 <= esz * n) by (unfold in_range in *; nia).
  pose proof (flex_raw_nonneg w k off esz n Hk Hnn) as Hlb.
  pose proof (flex_raw_aligned w k off esz n Hk) as Hal.
  destruct (_ <? _).
  - destruct (Z.max_spec min (flex_raw w k off esz n)) as [[_ ->] | [_ ->]];
      unfold in_range in *; (split; [ lia | intros; assumption ]).
  - unfold in_range in *. split; [ lia | intros; assumption ].
Qed.

Lemma flex_size_valid_witness :
  exists r,
    flex_size 64 8 24 (SIZE_MAX 64) 16 (SIZE_MAX 64) = Some r /\
    in_range 64 r /\
    ((8 | 24) -> (8 | r)).
Proof.
  apply (flex_size_valid 64 8 24 (SIZE_MAX 64) 16 (SIZE_MAX 64));
    try (unfold in_range, SIZE_MAX, modulus; lia).
  exists 3. split; [ lia | reflexivity ].
Defined.

(** X13: the clamp matters only while the elements fit in the padding:
    without overflow, once [min <= off + esz * n] the result no longer
    depends on [min]. *)
Theorem flex_size_min_irrelevant (w A min off esz n : Z) :
  is_pow2 w A -> in_range w min -> in_range w off -> in_range w esz ->
  0 < esz -> in_range w n ->
  esz * n + off + A - 1 < modulus w -> min <= off + esz * n ->
  flex_size w A min off esz n = flex_size w A 0 off esz n /\
  flex_size w A min off esz n = Some (align_ceil w A (off + esz * n)).
Proof.
  intros [k [Hk ->]] Hmin Hoff Hesz Hpos Hn Hsum Hbig.
  pose proof (pow2_range w k Hk) as [Hp Hm]. unfold in_range in *.
  assert (Hnn : 0 <= esz * n) by nia.
  rewrite !flex_size_eq by (unfold in_range; lia).
  rewrite flex_raw_fits by (try assumption; lia).
  rewrite (align_ceil_pow2 w k (off + esz * n)) by lia.
  replace (off + esz * n) with (esz * n + off) by ring.
  pose proof (ceil_bounds (2 ^ k) (esz * n + off) Hp).
  rewrite (align_ceil_pow2 w k off) by lia.
  pose proof (ceil_bounds (2 ^ k) off Hp).
  destruct (Z.ltb_spec (2 ^ k * ((off + 2 ^ k - 1) / 2 ^ k)) min);
    destruct (Z.ltb_spec (2 ^ k * ((off + 2 ^ k - 1) / 2 ^ k)) 0);
    split; f_equal; lia.
Qed.

Lemma flex_size_min_irrelevant_witness :
  flex_size 64 8 32 16 4 5 = flex_size 64 8 0 16 4 5 /\
  flex_size 64 8 32 16 4 5 = Some (align_ceil 64 8 (16 + 4 * 5)).
Proof.
  apply (flex_size_min_irrelevant 64 8 32 16 4 5);
    try (unfold in_range, modulus; lia).
  exists 3. split; [ lia | reflexivity ].
Defined.

(** * The I/O queue's entry pool *)

Import Ioq.

Lemma remove_at_length {A : Type} (i : nat) (l : list A) (e : A) :
  nth_error l i = Some e -> S (length (remove_at i l)) = length l.
Proof.
  intros H.
  assert (Hi : (i < length l)%nat) by (apply nth_error_Some; congruence).
  unfold remove_at. rewrite length_app, length_firstn, length_skipn. lia.
Qed.

Lemma create_accounted (alloc_ok : bool) (d n : nat) (q : ioq) :
  ioq_create alloc_ok d n = Some q -> accounted q /\ depth q = d.
Proof.
  unfold ioq_create. destruct alloc_ok; [ | discriminate ].
  intros E. injection E as <-. unfold accounted, n_completed. cbn.
  rewrite repeat_length. lia.
Qed.

(** Every step moves entries between owners and keeps [depth]. *)
Lemma step_accounted (q q' : ioq) :
  step q q' -> accounted q -> accounted q' /\ depth q' = depth q.
Proof.
  unfold accounted, n_completed.
  intros Hstep Hacc. destruct Hstep as
    [q o a p q' H | q q' H | q i r err q' H | q e q' H | q i q' H | q].
  - unfold ioq_submit in H. destruct (free q) as [ | e rest ] eqn:Ef;
      [ discriminate | ].
    injection H as <-. cbn in *. rewrite length_app. cbn. lia.
  - unfold worker_dispatch in H. destruct (submitted q) as [ | e rest ] eqn:Es;
      [ discriminate | ].
    destruct (_ <? _)%nat; [ | discriminate ].
    injection H as <-. cbn in *. lia.
  - unfold worker_publish in H.
    destruct (nth_error (inflight q) i) as [ e | ] eqn:En; [ | discriminate ].
    injection H as <-. cbn in *. rewrite length_app. cbn.
    pose proof (remove_at_length i (inflight q) e En). lia.
  - unfold ioq_trypop in H. destruct (completed q) as [ | e0 rest ] eqn:Ec;
      [ discriminate | ].
    injection H as _ <-. cbn in *. lia.
  - unfold ioq_free in H.
    destruct (nth_error (popped q) i) as [ e | ] eqn:En; [ | discriminate ].
    injection H as <-. cbn in *.
    pose proof (remove_at_length i (popped q) e En). lia.
  - cbn. rewrite length_app, length_map. cbn in *. lia.
Qed.

Lemma reachable_accounted (q0 q : ioq) :
  reachable q0 q -> accounted q0 -> accounted q /\ depth q = depth q0.
Proof.
  intros Hreach H0. induction Hreach as [ | q q' _ [IHa IHd] Hstep ].
  - split; [ exact H0 | reflexivity ].
  - destruct (step_accounted q q' Hstep IHa) as [Ha Hd].
    split; [ exact Ha | congruence ].
Qed.

(** C6: for a queue made by a successful [ioq_create(depth, nthreads)], in
    every state reached by submissions, worker dispatches and
    publications, pops, frees and cancels, the free, submitted, in-flight
    and completed-but-not-freed entries add up to [depth], and
    [ioq_capacity] is at most [depth]. *)
Theorem ioq_entries_accounted (alloc_ok : bool) (d n : nat) (q0 q : ioq) :
  ioq_create alloc_ok d n = Some q0 ->
  reachable q0 q ->
  (length (free q) + length (submitted q) + length (inflight q) + n_completed q
   = d)%nat /\
  (ioq_capacity q <= d)%nat.
Proof.
  intros Hc Hr. destruct (create_accounted alloc_ok d n q0 Hc) as [H0 Hd].
  destruct (reachable_accounted q0 q Hr H0) as [Ha Hdq].
  unfold accounted in Ha. unfold ioq_capacity. lia.
Qed.

Lemma ioq_entries_accounted_witness :
  exists q0 q,
    ioq_create true 2 1 = Some q0 /\
    ioq_close q0 3 170 = Some q /\
    (length (free q) + length (submitted q) + length (inflight q) + n_completed q
     = 2)%nat /\
    (ioq_capacity q <= 2)%nat.
Proof.
  eexists. eexists.
  split; [ reflexivity | split; [ reflexivity | ] ].
  apply (ioq_entries_accounted true 2 1 _ _ eq_refl).
  eapply reach_step; [ apply reach_init | ].
  eapply (step_submit _ IOQ_CLOSE (ioq_close_args 3) 170). reflexivity.
Defined.

(** Scenario S5: with [depth = 2], two submissions leave no capacity; a
    dispatch, a publication, a pop and a free bring it back to 1. *)
Example ioq_capacity_S5 :
  (q0 <- ioq_create true 2 1 ;;
   q1 <- ioq_opendir q0 1 0 10 170 ;;
   q2 <- ioq_opendir q1 2 0 20 187 ;;
   q3 <- worker_dispatch q2 ;;
   q4 <- worker_publish q3 0 0 0 ;;
   eq5 <- ioq_trypop q4 ;;
   q6 <- ioq_free (snd eq5) 0 ;;
   Some (ioq_capacity q2, ptr (fst eq5), ioq_capacity q6))
  = Some (0%nat, 170, 1%nat).
Proof. reflexivity. Qed.
